(** * Scalars modulo the Ed25519 subgroup order

    A shallow embedding of [crypto/ed25519/ecmath/scalar.go]: the 32-byte
    little-endian [Scalar], its constants, the constructors from machine
    integers, the arithmetic derived from the fused multiply-add, the
    clamping transform, the constant-time comparison and the hexadecimal
    text.

    Bytes are [Init.Byte.byte]; the integer read of a byte string is
    coqutil's [le_combine], and [le_split] is its inverse on a fixed width.
    Arrays updated by index use stdpp's [alter] and [insert]. *)

From Stdlib Require Import ZArith Lia List.
From Stdlib Require Init.Byte Strings.Byte Strings.String.
From stdpp Require Import base list.
From coqutil Require Import Byte Word.LittleEndianList Z.bitblast.
Import ListNotations String.StringSyntax.
Local Open Scope Z_scope.
#[local] Delimit Scope string_scope with string.

(** ** Machine arithmetic *)

(** [uint8] operators of Go on [byte]: the operands are widened, combined
    bitwise and narrowed again. *)
Module u8.
Definition and (a b : byte) : byte :=
  byte.of_Z (Z.land (byte.unsigned a) (byte.unsigned b)).
Definition or (a b : byte) : byte :=
  byte.of_Z (Z.lor (byte.unsigned a) (byte.unsigned b)).
Definition xor (a b : byte) : byte :=
  byte.of_Z (Z.lxor (byte.unsigned a) (byte.unsigned b)).
End u8.

(** [int64] and [uint64] are integers of [Z] kept in their range; the
    wrap-around of each operation is written out. *)
Module i64.
Definition min : Z := - 2 ^ 63.
Definition max : Z := 2 ^ 63 - 1.
Definition in_range (n : Z) : Prop := min <= n <= max.
Definition wrap (z : Z) : Z := (z + 2 ^ 63) mod 2 ^ 64 - 2 ^ 63.
(** unary minus on [int64] *)
Definition neg (n : Z) : Z := wrap (- n).
(** the conversion [uint64(n)] *)
Definition to_uint64 (n : Z) : Z := n mod 2 ^ 64.
End i64.

Module u64.
Definition in_range (n : Z) : Prop := 0 <= n < 2 ^ 64.
End u64.

(** ** Go standard library routines the file calls *)

(** [encoding/binary]: [LittleEndian.PutUint64(b, v)] first reads [b[7]],
    which panics on a slice shorter than eight bytes, then stores the eight
    bytes of [v], lowest first. *)
Module binary.
Definition PutUint64 (b : list byte) (v : Z) : option (list byte) :=
  match b !! 7%nat with
  | None => None
  | Some _ =>
      let b := <[0%nat := byte.of_Z v]> b in
      let b := <[1%nat := byte.of_Z (v ≫ 8)]> b in
      let b := <[2%nat := byte.of_Z (v ≫ 16)]> b in
      let b := <[3%nat := byte.of_Z (v ≫ 24)]> b in
      let b := <[4%nat := byte.of_Z (v ≫ 32)]> b in
      let b := <[5%nat := byte.of_Z (v ≫ 40)]> b in
      let b := <[6%nat := byte.of_Z (v ≫ 48)]> b in
      let b := <[7%nat := byte.of_Z (v ≫ 56)]> b in
      Some b
  end.
End binary.

(** [crypto/subtle]. *)
Module subtle.
(** [int((uint32(x^y) - 1) >> 31)] *)
Definition ConstantTimeByteEq (x y : byte) : Z :=
  ((byte.unsigned (u8.xor x y) - 1) mod 2 ^ 32) ≫ 31.

(** The loop [for i := 0; i < len(x); i++ { v |= x[i] ^ y[i] }], run on
    two slices of one length. *)
Fixpoint accumulate (v : byte) (x y : list byte) : byte :=
  match x, y with
  | a :: x', b :: y' => accumulate (u8.or v (u8.xor a b)) x' y'
  | _, _ => v
  end.

Definition ConstantTimeCompare (x y : list byte) : Z :=
  if negb (length x =? length y)%nat then 0
  else ConstantTimeByteEq (accumulate Byte.x00 x y) Byte.x00.
End subtle.

(** [encoding/hex]: [EncodeToString] writes, for each byte [v] of the
    source, the two characters [hextable[v>>4]] and [hextable[v&0x0f]]. *)
Module hex.
Definition hextable : list byte :=
  String.list_byte_of_string "0123456789abcdef"%string.

(** [hextable[n]]; the table has sixteen entries and both indices that
    [Encode] forms are below sixteen. *)
Definition index (n : Z) : byte := default Byte.x00 (hextable !! Z.to_nat n).

Fixpoint Encode (src : list byte) : list byte :=
  match src with
  | [] => []
  | v :: src' =>
      index (byte.unsigned v ≫ 4)
        :: index (Z.land (byte.unsigned v) 0x0f) :: Encode src'
  end.

Definition EncodeToString (src : list byte) : String.string :=
  String.string_of_list_byte (Encode src).
End hex.

(** ** The limb arithmetic of [internal/edwards25519] *)

Module edwards25519.
(** The subgroup order, as the number written in the comment on [L]. *)
Definition order : Z := 2 ^ 252 + 27742317777372353535851937790883648493.

(** Modelled from the spec: the reduction core shared by [ScMulAdd] and
    [ScReduce], whose Go text (package [internal/edwards25519]) is not
    among the sources.  The spec asks for the canonical representative of
    an integer modulo L. *)
Definition reduce (v : Z) : Z := v mod order.

(** Modelled from the spec: [ScMulAdd(s, a, b, c)], missing with its
    package.  The three 32-byte inputs are read as 256-bit unsigned
    integers, the product [a*b] plus [c] is formed and reduced modulo L,
    and the canonical result is written to [s] as 32 little-endian
    bytes. *)
Definition ScMulAdd (s a b c : list byte) : list byte :=
  le_split 32 (reduce (le_combine a * le_combine b + le_combine c)).

(** Modelled from the spec: [ScReduce(out, s)], missing with its package.
    The 64-byte little-endian input is reduced to its canonical residue
    modulo L, written to [out] as 32 bytes. *)
Definition ScReduce (out s : list byte) : list byte :=
  le_split 32 (reduce (le_combine s)).
End edwards25519.

(** ** [scalar.go] *)

(** [type Scalar [32]byte] *)
Abbreviation Scalar := (list byte) (only parsing).

Definition is_scalar (s : Scalar) : Prop := length s = 32%nat.

(** The integer a scalar stands for. *)
Definition value (s : Scalar) : Z := le_combine s.

(** A composite literal [Scalar{b0, b1, ...}]: the listed bytes, then zeros
    up to 32. *)
Definition literal (init : list Z) : Scalar :=
  map byte.of_Z init ++ replicate (32 - length init) Byte.x00.

Definition Zero : Scalar := literal [].
Definition One : Scalar := literal [1].
Definition Cofactor : Scalar := literal [8].

Definition NegOne : Scalar := literal
  [ 0xec; 0xd3; 0xf5; 0x5c; 0x1a; 0x63; 0x12; 0x58;
    0xd6; 0x9c; 0xf7; 0xa2; 0xde; 0xf9; 0xde; 0x14;
    0x00; 0x00; 0x00; 0x00; 0x00; 0x00; 0x00; 0x00;
    0x00; 0x00; 0x00; 0x00; 0x00; 0x00; 0x00; 0x10 ].

Definition L : Scalar := literal
  [ 0xed; 0xd3; 0xf5; 0x5c; 0x1a; 0x63; 0x12; 0x58;
    0xd6; 0x9c; 0xf7; 0xa2; 0xde; 0xf9; 0xde; 0x14;
    0x00; 0x00; 0x00; 0x00; 0x00; 0x00; 0x00; 0x00;
    0x00; 0x00; 0x00; 0x00; 0x00; 0x00; 0x00; 0x10 ].

(** Every method takes the receiver's old content first and returns the
    content it leaves there; [None] stands for a run-time panic. *)

(** [*s = Zero; binary.LittleEndian.PutUint64(s[:8], n)]: the slice [s[:8]]
    shares its bytes with [s]. *)
Definition SetUint64 (s : Scalar) (n : Z) : option Scalar :=
  let s := Zero in
  match binary.PutUint64 (take 8 s) n with
  | Some b => Some (b ++ drop 8 s)
  | None => None
  end.

Definition SetInt64 (s : Scalar) (n : Z) : option Scalar :=
  if 0 <=? n then SetUint64 s (i64.to_uint64 n)
  else SetUint64 s (i64.to_uint64 (i64.neg n)).

Definition MulAdd (z a b c : Scalar) : Scalar :=
  edwards25519.ScMulAdd z a b c.

Definition Add (z x y : Scalar) : Scalar := MulAdd z x One y.

Definition Mul (z x y : Scalar) : Scalar := MulAdd z x y Zero.

Definition Sub (z x y : Scalar) : Scalar := MulAdd z y NegOne x.

Definition Neg (z x : Scalar) : Scalar := MulAdd z x NegOne Zero.

Definition Equal (z x : Scalar) : bool :=
  subtle.ConstantTimeCompare x z =? 1.

(** [z[0] &= 248; z[31] &= 127; z[31] |= 64] *)
Definition Prune (z : Scalar) : Scalar :=
  let z := alter (fun b => u8.and b (byte.of_Z 248)) 0%nat z in
  let z := alter (fun b => u8.and b (byte.of_Z 127)) 31%nat z in
  alter (fun b => u8.or b (byte.of_Z 64)) 31%nat z.

(** The two byte transforms [Prune] composes, named for the proofs: the
    one applied to [z[0]] and the two applied in turn to [z[31]]. *)
Definition clamp_low (b : byte) : byte := u8.and b (byte.of_Z 248).
Definition clamp_high (b : byte) : byte :=
  u8.or (u8.and b (byte.of_Z 127)) (byte.of_Z 64).

Definition Reduce (z : Scalar) (x : list byte) : Scalar :=
  edwards25519.ScReduce z x.

(** [func (s *Scalar) String() string]; the name [String] is taken by the
    constructor of strings. *)
Definition Scalar_String (s : Scalar) : String.string :=
  hex.EncodeToString s.

(** The position of a character in [hex.hextable], and the byte that two
    characters spell; both serve the proofs about [Scalar_String] only. *)
Definition hex_position (c : byte) : Z :=
  let n := byte.unsigned c in
  if (48 <=? n) && (n <=? 57) then n - 48 else n - 97 + 10.
Definition hex_pair (c1 c2 : byte) : byte :=
  byte.of_Z (16 * hex_position c1 + hex_position c2).

(** ** Sample runs *)

Example SetUint64_5 :
  SetUint64 L 5 = Some (literal [5]).
Proof. vm_compute. reflexivity. Qed.

Example Add_5_7 :
  Add Zero (literal [5]) (literal [7]) = literal [12].
Proof. vm_compute. reflexivity. Qed.

Example SetInt64_minus_3 :
  SetInt64 One (-3) = Some (literal [3]).
Proof. vm_compute. reflexivity. Qed.

Example Equal_One_Cofactor : Equal One Cofactor = false.
Proof. vm_compute. reflexivity. Qed.

Example Prune_ones :
  value (Prune (replicate 32 Byte.xff)) = 2 ^ 255 - 8.
Proof. vm_compute. reflexivity. Qed.

(** ** Bytes *)

Section ByteFacts.
Implicit Types a b v : byte.

Lemma unsigned_bound b : 0 <= byte.unsigned b < 256.
Proof. exact (byte.unsigned_range b). Qed.

Lemma unsigned_high_bits b i : 8 <= i -> Z.testbit (byte.unsigned b) i = false.
Proof.
  intros Hi. rewrite <- (byte.wrap_unsigned b). unfold byte.wrap.
  apply Z.mod_pow2_bits_high. lia.
Qed.

(** A bitwise combination of two bytes needs no narrowing when it maps
    two clear bits to a clear bit. *)
Lemma wrap_bitwise (f : Z -> Z -> Z) (g : bool -> bool -> bool) a b :
  (forall x y i, 0 <= i -> Z.testbit (f x y) i = g (Z.testbit x i) (Z.testbit y i)) ->
  g false false = false ->
  byte.wrap (f (byte.unsigned a) (byte.unsigned b))
  = f (byte.unsigned a) (byte.unsigned b).
Proof.
  intros Hf Hg. unfold byte.wrap. apply Z.bits_inj'. intros i Hi.
  destruct (Z.ltb_spec i 8) as [Hlt | Hge].
  - rewrite Z.mod_pow2_bits_low by lia. reflexivity.
  - rewrite Z.mod_pow2_bits_high by lia.
    rewrite Hf, !unsigned_high_bits by lia. now rewrite Hg.
Qed.

Lemma unsigned_and a b :
  byte.unsigned (u8.and a b) = Z.land (byte.unsigned a) (byte.unsigned b).
Proof.
  unfold u8.and. rewrite byte.unsigned_of_Z.
  apply (wrap_bitwise Z.land andb); [intros; apply Z.land_spec | reflexivity].
Qed.

Lemma unsigned_or a b :
  byte.unsigned (u8.or a b) = Z.lor (byte.unsigned a) (byte.unsigned b).
Proof.
  unfold u8.or. rewrite byte.unsigned_of_Z.
  apply (wrap_bitwise Z.lor orb); [intros; apply Z.lor_spec | reflexivity].
Qed.

Lemma unsigned_xor a b :
  byte.unsigned (u8.xor a b) = Z.lxor (byte.unsigned a) (byte.unsigned b).
Proof.
  unfold u8.xor. rewrite byte.unsigned_of_Z.
  apply (wrap_bitwise Z.lxor xorb); [intros; apply Z.lxor_spec | reflexivity].
Qed.

Lemma unsigned_0_iff b : byte.unsigned b = 0 <-> b = Byte.x00.
Proof.
  split; [intros H | intros ->; reflexivity].
  apply byte.unsigned_inj. rewrite H. reflexivity.
Qed.

Lemma xor_0_iff a b : u8.xor a b = Byte.x00 <-> a = b.
Proof.
  rewrite <- unsigned_0_iff, unsigned_xor. split.
  - intros H. apply byte.unsigned_inj, Z.lxor_eq, H.
  - intros ->. apply Z.lxor_nilpotent.
Qed.

Lemma or_0_iff a b : u8.or a b = Byte.x00 <-> a = Byte.x00 /\ b = Byte.x00.
Proof.
  rewrite <- !unsigned_0_iff, unsigned_or. apply Z.lor_eq_0_iff.
Qed.

Lemma ConstantTimeByteEq_0 v :
  subtle.ConstantTimeByteEq v Byte.x00 = if Byte.eqb v Byte.x00 then 1 else 0.
Proof. destruct v; vm_compute; reflexivity. Qed.
End ByteFacts.

(** ** Little-endian reading *)

Section LittleEndianFacts.
Implicit Types l : list byte.

Lemma value_cons (h : byte) l :
  le_combine (h :: l) = byte.unsigned h + 256 * le_combine l.
Proof.
  change (le_combine (h :: l))
    with (Z.lor (byte.unsigned h) (Z.shiftl (le_combine l) 8)).
  rewrite Z.shiftl_mul_pow2 by lia.
  rewrite (Z.mul_comm (le_combine l)). change (2 ^ 8) with 256.
  rewrite <- Z.or_to_plus; [reflexivity |].
  apply Z.bits_inj'. intros i Hi.
  rewrite Z.land_spec, Z.bits_0.
  destruct (Z.ltb_spec i 8) as [Hlt | Hge].
  - change 256 with (2 ^ 8). rewrite (Z.mul_comm (2 ^ 8)).
    rewrite Z.mul_pow2_bits_low by lia. apply andb_false_r.
  - rewrite unsigned_high_bits by lia. reflexivity.
Qed.

Lemma value_app l1 l2 :
  le_combine (l1 ++ l2)
  = le_combine l1 + 2 ^ (8 * Z.of_nat (length l1)) * le_combine l2.
Proof.
  induction l1 as [| h l1 IH].
  - cbn [app length]. change (le_combine []) with 0.
    change (2 ^ (8 * Z.of_nat 0)) with 1. lia.
  - cbn [app length]. rewrite !value_cons, IH.
    replace (8 * Z.of_nat (S (length l1))) with (8 + 8 * Z.of_nat (length l1)) by lia.
    rewrite Z.pow_add_r by lia. change (2 ^ 8) with 256. ring.
Qed.

Lemma value_split_32 v :
  0 <= v < 2 ^ 256 -> le_combine (le_split 32 v) = v.
Proof.
  intros Hv. rewrite le_combine_split.
  change (Z.of_nat 32 * 8) with 256. apply Z.mod_small, Hv.
Qed.

Lemma split_value_32 l : length l = 32%nat -> le_split 32 (le_combine l) = l.
Proof. intros <-. apply split_le_combine. Qed.
End LittleEndianFacts.

(** ** The order and the reduction *)

Lemma order_pos : 0 < edwards25519.order.
Proof. reflexivity. Qed.

Lemma order_lt_2_256 : edwards25519.order < 2 ^ 256.
Proof. reflexivity. Qed.

Lemma reduce_range v : 0 <= edwards25519.reduce v < edwards25519.order.
Proof. apply Z.mod_pos_bound, order_pos. Qed.

Lemma value_split_reduce v :
  value (le_split 32 (edwards25519.reduce v)) = v mod edwards25519.order.
Proof.
  unfold value. rewrite value_split_32; [reflexivity |].
  pose proof (reduce_range v). pose proof order_lt_2_256. lia.
Qed.

Lemma value_Zero : value Zero = 0.
Proof. reflexivity. Qed.

Lemma value_One : value One = 1.
Proof. reflexivity. Qed.

Lemma value_L : value L = edwards25519.order.
Proof. vm_compute. reflexivity. Qed.

Lemma value_NegOne : value NegOne = edwards25519.order - 1.
Proof. vm_compute. reflexivity. Qed.

Lemma value_MulAdd z a b c :
  value (MulAdd z a b c) = (value a * value b + value c) mod edwards25519.order.
Proof. apply value_split_reduce. Qed.

Lemma MulAdd_is_scalar z a b c : is_scalar (MulAdd z a b c).
Proof. apply length_le_split. Qed.

Lemma MulAdd_value_ext z z' a b c a' b' c' :
  (value a * value b + value c) mod edwards25519.order
  = (value a' * value b' + value c') mod edwards25519.order ->
  MulAdd z a b c = MulAdd z' a' b' c'.
Proof.
  intros H. unfold MulAdd, edwards25519.ScMulAdd, edwards25519.reduce.
  unfold value in H. now rewrite H.
Qed.

(** ** Comparison *)

Section EqualFacts.
Import subtle.

Lemma accumulate_0_iff (x y : list byte) :
  length x = length y ->
  forall v, accumulate v x y = Byte.x00 <-> v = Byte.x00 /\ x = y.
Proof.
  revert y. induction x as [| a x IH]; intros [| b y] Hlen v;
    try discriminate Hlen; cbn [accumulate].
  - tauto.
  - injection Hlen as Hlen. rewrite (IH y Hlen), or_0_iff, xor_0_iff.
    split.
    + intros [[-> ->] ->]. tauto.
    + intros [-> [= -> ->]]. tauto.
Qed.

Lemma ConstantTimeCompare_1_iff (x y : list byte) :
  ConstantTimeCompare x y = 1 <-> x = y.
Proof.
  unfold ConstantTimeCompare.
  destruct (Nat.eqb_spec (length x) (length y)) as [Hlen | Hlen]; cbn [negb].
  - rewrite ConstantTimeByteEq_0.
    pose proof (accumulate_0_iff x y Hlen Byte.x00) as Hacc.
    destruct (Byte.eqb _ _) eqn:Hv.
    + apply Byte.byte_dec_bl in Hv. split; [intros _ | reflexivity].
      now apply Hacc.
    + split; [discriminate |]. intros Hxy.
      assert (Hz : accumulate Byte.x00 x y = Byte.x00) by now apply Hacc.
      rewrite Hz in Hv. discriminate Hv.
  - split; [discriminate |]. intros ->. now destruct Hlen.
Qed.

Lemma Equal_true_iff (z x : Scalar) : Equal z x = true <-> x = z.
Proof.
  unfold Equal. rewrite Z.eqb_eq. apply ConstantTimeCompare_1_iff.
Qed.

Lemma Equal_false_iff (z x : Scalar) : Equal z x = false <-> x <> z.
Proof.
  rewrite <- Equal_true_iff. destruct (Equal z x); split; congruence.
Qed.

Lemma Equal_refl (x : Scalar) : Equal x x = true.
Proof. now apply Equal_true_iff. Qed.
End EqualFacts.

(** A byte with one bit flipped is another byte. *)
Lemma flip_bit_neq (b : byte) (k : Z) :
  0 <= k < 8 -> u8.xor b (byte.of_Z (1 ≪ k)) <> b.
Proof.
  intros Hk Heq. apply (f_equal byte.unsigned) in Heq.
  rewrite unsigned_xor, byte.unsigned_of_Z in Heq.
  apply (f_equal (fun v => Z.testbit v k)) in Heq.
  rewrite Z.lxor_spec in Heq. unfold byte.wrap in Heq.
  rewrite Z.mod_pow2_bits_low, Z.shiftl_1_l, Z.pow2_bits_true in Heq by lia.
  destruct (Z.testbit (byte.unsigned b) k); discriminate Heq.
Qed.

(** Two lists are equal when they have one length and agree at every
    index. *)
Lemma scalar_ext (x y : Scalar) :
  is_scalar x -> is_scalar y ->
  (forall i : nat, (i < 32)%nat -> x !! i = y !! i) -> x = y.
Proof.
  unfold is_scalar. intros Hx Hy H. apply list_eq. intros i.
  destruct (Nat.lt_ge_cases i 32) as [Hi | Hi]; [now apply H |].
  rewrite !lookup_ge_None_2 by lia. reflexivity.
Qed.

(** C5. [Equal] decides byte-wise equality of two scalars: it is true
    exactly when the operands agree at each of the 32 positions; it is true
    on a scalar and itself; it is false as soon as one position holds a
    different byte, and in particular when [y] is [x] with a single bit [k]
    of the byte at position [i] flipped. *)
Theorem Equal_bytewise (x y : Scalar) :
  is_scalar x -> is_scalar y ->
  (Equal x y = true <-> forall i : nat, (i < 32)%nat -> x !! i = y !! i)
  /\ Equal x x = true
  /\ ((exists i : nat, (i < 32)%nat /\ x !! i <> y !! i) -> Equal x y = false)
  /\ (forall (i : nat) (k : Z), (i < 32)%nat -> 0 <= k < 8 ->
        y = alter (fun b => u8.xor b (byte.of_Z (1 ≪ k))) i x ->
        Equal x y = false).
Proof.
  intros Hx Hy. split; [| split; [| split]].
  - rewrite Equal_true_iff. split.
    + now intros ->.
    + intros H. symmetry. now apply scalar_ext.
  - apply Equal_refl.
  - intros (i & _ & Hi). apply Equal_false_iff. intros ->. now apply Hi.
  - intros i k Hi Hk ->. apply Equal_false_iff. intros Heq.
    apply (f_equal (fun l => l !! i)) in Heq. cbv beta in Heq.
    rewrite list_lookup_alter_eq in Heq.
    destruct (lookup_lt_is_Some_2 x i) as [b Hb]; [unfold is_scalar in Hx; lia |].
    rewrite Hb in Heq. cbn in Heq. injection Heq as Heq.
    exact (flip_bit_neq b k Hk Heq).
Qed.

Lemma Equal_bytewise_witness :
  Equal One One = true /\ Equal One Cofactor = false.
Proof.
  pose proof (Equal_bytewise One Cofactor eq_refl eq_refl) as (_ & H1 & H2 & _).
  split; [exact H1 | apply H2].
  exists 0%nat. split; [lia | discriminate].
Defined.

(** ** Arithmetic modulo the order *)

Section Arithmetic.
Import edwards25519.
Implicit Types z a b c x y : Scalar.

Lemma value_Mul z x y : value (Mul z x y) = (value x * value y) mod order.
Proof.
  unfold Mul. rewrite value_MulAdd, value_Zero. f_equal. lia.
Qed.

Lemma value_Add z x y : value (Add z x y) = (value x + value y) mod order.
Proof.
  unfold Add. rewrite value_MulAdd, value_One. f_equal. lia.
Qed.

Lemma value_Neg z x : value (Neg z x) = (- value x) mod order.
Proof.
  unfold Neg. rewrite value_MulAdd, value_NegOne, value_Zero.
  replace (value x * (order - 1) + 0) with (- value x + value x * order) by ring.
  apply Z.mod_add. pose proof order_pos. lia.
Qed.

Lemma value_Sub z x y : value (Sub z x y) = (value x - value y) mod order.
Proof.
  unfold Sub. rewrite value_MulAdd, value_NegOne.
  replace (value y * (order - 1) + value x)
    with (value x - value y + value y * order) by ring.
  apply Z.mod_add. pose proof order_pos. lia.
Qed.

Lemma MulAdd_canonical_value z x :
  is_scalar x -> value x < order -> le_split 32 (value x mod order) = x.
Proof.
  intros Hx Hlt. pose proof (le_combine_bound x) as [H0 _].
  rewrite Z.mod_small by (unfold value in *; lia).
  now apply split_value_32.
Qed.
End Arithmetic.

(** C1. [MulAdd] leaves in its receiver the canonical representative of
    [a*b + c] modulo L, L being 2^252 + 27742317777372353535851937790883648493:
    a 32-byte scalar whose value lies in [0, L) and equals [(a*b + c) mod L];
    and it agrees with [Add] applied to [Mul a b] and [c], whatever the
    receivers held before. *)
Theorem MulAdd_canonical (z z1 z2 a b c : Scalar) :
  value L = 2 ^ 252 + 27742317777372353535851937790883648493
  /\ edwards25519.order = value L
  /\ is_scalar (MulAdd z a b c)
  /\ 0 <= value (MulAdd z a b c) < edwards25519.order
  /\ value (MulAdd z a b c) = (value a * value b + value c) mod edwards25519.order
  /\ MulAdd z a b c = Add z1 (Mul z2 a b) c
  /\ Equal (MulAdd z a b c) (Add z1 (Mul z2 a b) c) = true.
Proof.
  assert (Heq : MulAdd z a b c = Add z1 (Mul z2 a b) c).
  { unfold Add. apply MulAdd_value_ext.
    rewrite value_Mul, value_One, Z.mul_1_r.
    now rewrite Z.add_mod_idemp_l by (pose proof order_pos; lia). }
  split; [apply value_L |]. split; [symmetry; apply value_L |].
  split; [apply MulAdd_is_scalar |].
  split; [rewrite value_MulAdd; apply Z.mod_pos_bound, order_pos |].
  split; [apply value_MulAdd |]. split; [exact Heq |].
  rewrite <- Heq. apply Equal_refl.
Qed.

(** C2. [Reduce] leaves in its receiver a 32-byte scalar whose value lies
    in [0, L) and is exactly [w mod L], [w] being the little-endian integer
    of the input; this holds for every byte string, the 64-byte (512-bit)
    inputs among them. *)
Theorem Reduce_mod_order (z : Scalar) (w : list byte) :
  is_scalar (Reduce z w)
  /\ 0 <= value (Reduce z w) < edwards25519.order
  /\ value (Reduce z w) = le_combine w mod edwards25519.order.
Proof.
  unfold Reduce, edwards25519.ScReduce.
  split; [apply length_le_split |].
  rewrite value_split_reduce.
  split; [apply Z.mod_pos_bound, order_pos | reflexivity].
Qed.

(** C3. [Sub] computes [x - y] modulo L; it gives the scalar that [Add]
    gives on [x] and [Neg y]; and it is [MulAdd y NegOne x], where [NegOne]
    is congruent to -1 modulo L. *)
Theorem Sub_is_MulAdd_NegOne (z z1 z2 x y : Scalar) :
  value (Sub z x y) = (value x - value y) mod edwards25519.order
  /\ Sub z x y = Add z1 x (Neg z2 y)
  /\ Equal (Sub z x y) (Add z1 x (Neg z2 y)) = true
  /\ Sub z x y = MulAdd z y NegOne x
  /\ value NegOne mod edwards25519.order = (-1) mod edwards25519.order.
Proof.
  assert (Heq : Sub z x y = Add z1 x (Neg z2 y)).
  { unfold Sub, Add. apply MulAdd_value_ext.
    rewrite value_Neg, value_One, value_NegOne, Z.mul_1_r.
    rewrite Z.add_mod_idemp_r by (pose proof order_pos; lia).
    replace (value y * (edwards25519.order - 1) + value x)
      with (value x + - value y + value y * edwards25519.order) by ring.
    apply Z.mod_add. pose proof order_pos. lia. }
  split; [apply value_Sub |]. split; [exact Heq |].
  split; [rewrite <- Heq; apply Equal_refl |].
  split; [reflexivity |].
  rewrite value_NegOne. reflexivity.
Qed.

(** C4. Read as little-endian integers, the literal [NegOne] is the
    literal [L] minus one, [L] being the subgroup order, so [NegOne] is the
    canonical encoding of -1 modulo L; and [Add] of [NegOne] and [One] is
    [Zero]. *)
Theorem NegOne_is_L_minus_one (z : Scalar) :
  value NegOne = value L - 1
  /\ value L = edwards25519.order
  /\ NegOne = le_split 32 ((-1) mod edwards25519.order)
  /\ Add z NegOne One = Zero
  /\ Equal (Add z NegOne One) Zero = true.
Proof.
  assert (Heq : Add z NegOne One = Zero).
  { unfold Add, MulAdd, edwards25519.ScMulAdd. vm_compute. reflexivity. }
  split; [rewrite value_NegOne, value_L; reflexivity |].
  split; [apply value_L |].
  split; [vm_compute; reflexivity |].
  split; [exact Heq |].
  rewrite Heq. apply Equal_refl.
Qed.

(** C9. For a canonical scalar [x], of value below L: [Add x Zero] is [x],
    [Mul x One] is [x], and [Mul x Zero] is [Zero]. *)
Theorem Add_Zero_Mul_One_Mul_Zero (z x : Scalar) :
  is_scalar x -> 0 <= value x < edwards25519.order ->
  Add z x Zero = x /\ Mul z x One = x /\ Mul z x Zero = Zero.
Proof.
  intros Hx [_ Hlt].
  unfold Add, Mul, MulAdd, edwards25519.ScMulAdd, edwards25519.reduce.
  fold (value x). fold (value One). fold (value Zero).
  rewrite value_One, value_Zero, !Z.mul_1_r, !Z.add_0_r, Z.mul_0_r.
  split; [now apply MulAdd_canonical_value |].
  split; [now apply MulAdd_canonical_value |].
  reflexivity.
Qed.

Lemma Add_Zero_Mul_One_Mul_Zero_witness :
  Add L NegOne Zero = NegOne /\ Mul L NegOne One = NegOne
  /\ Mul L NegOne Zero = Zero.
Proof.
  apply (Add_Zero_Mul_One_Mul_Zero L NegOne).
  - reflexivity.
  - rewrite value_NegOne. pose proof order_pos. lia.
Defined.

(** ** Constructors from machine integers *)

Section Constructors.
Lemma le_split_S (k : nat) (v : Z) :
  le_split (S k) v = byte.of_Z v :: le_split k (v ≫ 8).
Proof. reflexivity. Qed.

Lemma PutUint64_8 (b0 b1 b2 b3 b4 b5 b6 b7 : byte) (v : Z) :
  binary.PutUint64 [b0; b1; b2; b3; b4; b5; b6; b7] v
  = Some [ byte.of_Z v; byte.of_Z (v ≫ 8); byte.of_Z (v ≫ 16);
           byte.of_Z (v ≫ 24); byte.of_Z (v ≫ 32); byte.of_Z (v ≫ 40);
           byte.of_Z (v ≫ 48); byte.of_Z (v ≫ 56) ].
Proof. reflexivity. Qed.

(** [PutUint64] panics exactly on the slices shorter than eight bytes. *)
Lemma PutUint64_panics (b : list byte) (v : Z) :
  binary.PutUint64 b v = None <-> (length b < 8)%nat.
Proof.
  unfold binary.PutUint64. destruct (b !! 7%nat) eqn:H7.
  - apply lookup_lt_Some in H7. split; [discriminate | lia].
  - apply lookup_ge_None in H7. split; [lia | reflexivity].
Qed.

Lemma le_split_8 (v : Z) :
  le_split 8 v
  = [ byte.of_Z v; byte.of_Z (v ≫ 8); byte.of_Z (v ≫ 16);
      byte.of_Z (v ≫ 24); byte.of_Z (v ≫ 32); byte.of_Z (v ≫ 40);
      byte.of_Z (v ≫ 48); byte.of_Z (v ≫ 56) ] ++ le_split 0 (v ≫ 64).
Proof.
  rewrite !le_split_S, !Z.shiftr_shiftr by lia. reflexivity.
Qed.

Lemma le_split_add (n m : nat) (v : Z) :
  le_split (n + m) v = le_split n v ++ le_split m (v ≫ (8 * Z.of_nat n)).
Proof.
  revert v. induction n as [| n IH]; intros v.
  - reflexivity.
  - cbn [Nat.add]. rewrite !le_split_S, IH, Z.shiftr_shiftr by lia.
    replace (8 + 8 * Z.of_nat n) with (8 * Z.of_nat (S n)) by lia.
    reflexivity.
Qed.

Lemma le_split_32_uint64 (v : Z) :
  u64.in_range v ->
  le_split 32 v
  = [ byte.of_Z v; byte.of_Z (v ≫ 8); byte.of_Z (v ≫ 16);
      byte.of_Z (v ≫ 24); byte.of_Z (v ≫ 32); byte.of_Z (v ≫ 40);
      byte.of_Z (v ≫ 48); byte.of_Z (v ≫ 56) ] ++ replicate 24 Byte.x00.
Proof.
  intros [H0 H64].
  assert (Hhigh : v ≫ 64 = 0).
  { rewrite Z.shiftr_div_pow2 by lia. now apply Z.div_small. }
  change 32%nat with (8 + 24)%nat. rewrite le_split_add, le_split_8.
  change (8 * Z.of_nat 8) with 64. rewrite Hhigh. reflexivity.
Qed.

Lemma SetUint64_encodes (s : Scalar) (n : Z) :
  u64.in_range n -> SetUint64 s n = Some (le_split 32 n).
Proof.
  intros Hn. unfold SetUint64.
  change (take 8 Zero) with (replicate 8 Byte.x00).
  change (drop 8 Zero) with (replicate 24 Byte.x00).
  cbn [replicate]. rewrite PutUint64_8, le_split_32_uint64 by exact Hn.
  reflexivity.
Qed.

Lemma to_uint64_nonneg (n : Z) :
  i64.in_range n -> 0 <= n -> i64.to_uint64 n = n.
Proof.
  unfold i64.in_range, i64.min, i64.max, i64.to_uint64. intros Hn H0.
  apply Z.mod_small. lia.
Qed.

(** Negating a negative [int64] and converting to [uint64] gives the
    magnitude, also at the least value, where the negation wraps. *)
Lemma to_uint64_neg (n : Z) :
  i64.in_range n -> n < 0 -> i64.to_uint64 (i64.neg n) = Z.abs n.
Proof.
  unfold i64.in_range, i64.min, i64.max, i64.to_uint64, i64.neg, i64.wrap.
  intros Hn H0.
  rewrite Zminus_mod_idemp_l.
  replace (- n + 2 ^ 63 - 2 ^ 63) with (- n) by ring.
  rewrite Z.mod_small; lia.
Qed.
End Constructors.

(** C6. On an [int64] [n] that is not negative, [SetInt64] does what
    [SetUint64] does on [n]. On a negative [n] it returns the 32-byte
    little-endian encoding of the magnitude [|n|], as [SetUint64] does on
    [|n|], and that is not the encoding of [L + n]; the least value -2^63,
    whose negation wraps, is covered. No call panics. *)
Theorem SetInt64_magnitude (s : Scalar) (n : Z) :
  i64.in_range n ->
  (0 <= n ->
     SetInt64 s n = SetUint64 s n /\ SetInt64 s n = Some (le_split 32 n))
  /\ (n < 0 ->
        SetInt64 s n = Some (le_split 32 (Z.abs n))
        /\ SetInt64 s n = SetUint64 s (Z.abs n)
        /\ value (le_split 32 (Z.abs n)) = Z.abs n
        /\ SetInt64 s n <> Some (le_split 32 (edwards25519.order + n))).
Proof.
  intros Hn. split; intros H0; unfold SetInt64.
  - destruct (Z.leb_spec 0 n) as [_ | Hlt]; [| lia].
    rewrite to_uint64_nonneg by assumption.
    split; [reflexivity |]. apply SetUint64_encodes.
    unfold i64.in_range, i64.min, i64.max, u64.in_range in *. lia.
  - destruct (Z.leb_spec 0 n) as [Hle | _]; [lia |].
    rewrite to_uint64_neg by assumption.
    assert (Habs : u64.in_range (Z.abs n)).
    { unfold i64.in_range, i64.min, i64.max, u64.in_range in *. lia. }
    assert (Hval : value (le_split 32 (Z.abs n)) = Z.abs n).
    { apply value_split_32. unfold u64.in_range in Habs. lia. }
    rewrite SetUint64_encodes by exact Habs.
    split; [reflexivity |]. split; [reflexivity |]. split; [exact Hval |].
    intros Heq. apply (inj Some) in Heq.
    apply (f_equal value) in Heq. rewrite Hval in Heq.
    unfold value in Heq. rewrite value_split_32 in Heq.
    + unfold i64.in_range, i64.min, i64.max, edwards25519.order in *. lia.
    + unfold i64.in_range, i64.min, i64.max, edwards25519.order in *. lia.
Qed.

Lemma SetInt64_magnitude_witness :
  SetInt64 L (- 2 ^ 63) = Some (le_split 32 (2 ^ 63))
  /\ SetInt64 L 7 = SetUint64 L 7.
Proof.
  assert (Hmin : i64.in_range (- 2 ^ 63))
    by (unfold i64.in_range, i64.min, i64.max; lia).
  assert (H7 : i64.in_range 7)
    by (unfold i64.in_range, i64.min, i64.max; lia).
  split.
  - destruct (SetInt64_magnitude L (- 2 ^ 63) Hmin) as [_ Hneg].
    apply Hneg. lia.
  - destruct (SetInt64_magnitude L 7 H7) as [Hpos _].
    apply Hpos. lia.
Defined.

(** ** Clamping *)

Section PruneFacts.
Lemma clamp_low_mod_8 b : byte.unsigned (clamp_low b) mod 8 = 0.
Proof. destruct b; vm_compute; reflexivity. Qed.

Lemma clamp_low_bits b i :
  0 <= i < 3 -> Z.testbit (byte.unsigned (clamp_low b)) i = false.
Proof.
  intros Hi. unfold clamp_low. rewrite unsigned_and, Z.land_spec.
  assert (Hc : i = 0 \/ i = 1 \/ i = 2) by lia.
  destruct Hc as [-> | [-> | ->]]; apply andb_false_r.
Qed.

Lemma clamp_high_range b : 64 <= byte.unsigned (clamp_high b) < 128.
Proof. destruct b; vm_compute; split; discriminate || reflexivity. Qed.

Lemma clamp_high_bits b :
  Z.testbit (byte.unsigned (clamp_high b)) 7 = false
  /\ Z.testbit (byte.unsigned (clamp_high b)) 6 = true.
Proof.
  destruct b; vm_compute; split; reflexivity.
Qed.

Lemma clamp_low_idem b : clamp_low (clamp_low b) = clamp_low b.
Proof. destruct b; vm_compute; reflexivity. Qed.

Lemma clamp_high_idem b : clamp_high (clamp_high b) = clamp_high b.
Proof. destruct b; vm_compute; reflexivity. Qed.

(** The byte found at each index after [Prune], on a list of any
    length. *)
Lemma Prune_lookup (z : Scalar) (i : nat) :
  Prune z !! i
  = (if decide (i = 0%nat) then clamp_low
     else if decide (i = 31%nat) then clamp_high else id) <$> z !! i.
Proof.
  unfold Prune, clamp_high, clamp_low. rewrite !list_lookup_alter.
  repeat case_decide; subst; try congruence; try discriminate;
    now destruct (z !! _).
Qed.

Lemma Prune_length (z : Scalar) : length (Prune z) = length z.
Proof. unfold Prune. now rewrite !length_alter. Qed.

(** A scalar is a first byte, thirty bytes and a last byte. *)
Lemma scalar_ends (z : Scalar) :
  is_scalar z ->
  exists b0 mid b31, z = b0 :: mid ++ [b31] /\ length mid = 30%nat.
Proof.
  unfold is_scalar. intros Hz.
  destruct z as [| b0 t]; [discriminate |].
  destruct t as [| b t' _] using rev_ind; [discriminate |].
  exists b0, t', b. split; [reflexivity |].
  cbn [length] in Hz. rewrite length_app in Hz. cbn [length] in Hz. lia.
Qed.

Lemma Prune_ends (b0 b31 : byte) (mid : list byte) :
  length mid = 30%nat ->
  Prune (b0 :: mid ++ [b31]) = clamp_low b0 :: mid ++ [clamp_high b31].
Proof.
  intros Hmid.
  change (Prune (b0 :: mid ++ [b31]))
    with (clamp_low b0
            :: alter (fun b => u8.or b (byte.of_Z 64)) 30%nat
                 (alter (fun b => u8.and b (byte.of_Z 127)) 30%nat
                    (mid ++ [b31]))).
  rewrite !alter_app_r_alt by lia. rewrite Hmid. reflexivity.
Qed.

Lemma value_ends (b0 b31 : byte) (mid : list byte) :
  length mid = 30%nat ->
  value (b0 :: mid ++ [b31])
  = byte.unsigned b0 + 256 * le_combine mid + 2 ^ 248 * byte.unsigned b31.
Proof.
  intros Hmid. unfold value.
  rewrite value_cons, value_app, Hmid, value_cons.
  change (le_combine []) with 0.
  change (2 ^ (8 * Z.of_nat 30)) with (2 ^ 240).
  change (2 ^ 248) with (256 * 2 ^ 240). ring.
Qed.
End PruneFacts.

(** C7. After [Prune], a 32-byte string read as a little-endian integer is
    a multiple of 8, the low three bits of byte 0 being clear, and its bit
    length is exactly 255: it lies in [2^254, 2^255), bit 7 of byte 31
    being clear and bit 6 set. *)
Theorem Prune_clamps (z : Scalar) :
  is_scalar z ->
  value (Prune z) mod 8 = 0
  /\ 2 ^ 254 <= value (Prune z) < 2 ^ 255
  /\ Z.log2 (value (Prune z)) + 1 = 255
  /\ exists b0 b31 : byte,
       Prune z !! 0%nat = Some b0 /\ Prune z !! 31%nat = Some b31
       /\ (forall i, 0 <= i < 3 -> Z.testbit (byte.unsigned b0) i = false)
       /\ Z.testbit (byte.unsigned b31) 7 = false
       /\ Z.testbit (byte.unsigned b31) 6 = true.
Proof.
  intros Hz. destruct (scalar_ends z Hz) as (b0 & mid & b31 & -> & Hmid).
  rewrite Prune_ends by exact Hmid.
  pose proof (value_ends (clamp_low b0) (clamp_high b31) mid Hmid) as Hval.
  pose proof (clamp_low_mod_8 b0) as Hlow.
  pose proof (unsigned_bound (clamp_low b0)) as Hb0.
  pose proof (clamp_high_range b31) as Hhigh.
  pose proof (le_combine_bound mid) as Hm. rewrite Hmid in Hm.
  change (2 ^ (8 * Z.of_nat 30)) with (2 ^ 240) in Hm.
  assert (Hrange : 2 ^ 254
                   <= value (clamp_low b0 :: mid ++ [clamp_high b31])
                   < 2 ^ 255).
  { rewrite Hval. change (2 ^ 254) with (2 ^ 248 * 64).
    change (2 ^ 255) with (2 ^ 248 * 128).
    change (2 ^ 240) with (2 ^ 248 / 256) in Hm.
    set (p := 2 ^ 248) in *. assert (Hp : p = 256 * (p / 256)) by reflexivity.
    lia. }
  split; [| split; [exact Hrange | split]].
  - rewrite Hval. change (2 ^ 248) with (8 * 2 ^ 245).
    rewrite <- Z.add_assoc, Z.add_mod, Hlow by lia.
    replace (256 * le_combine mid + 8 * 2 ^ 245 * byte.unsigned (clamp_high b31))
      with ((32 * le_combine mid + 2 ^ 245 * byte.unsigned (clamp_high b31)) * 8)
      by ring.
    rewrite Z.mod_mul by lia. reflexivity.
  - rewrite (Z.log2_unique (value _) 254); [reflexivity | lia | exact Hrange].
  - exists (clamp_low b0), (clamp_high b31).
    split; [reflexivity |]. split.
    + change ((clamp_low b0 :: mid ++ [clamp_high b31]) !! 31%nat)
        with ((mid ++ [clamp_high b31]) !! 30%nat).
      rewrite lookup_app_r by lia. rewrite Hmid. reflexivity.
    + split; [apply clamp_low_bits |]. apply clamp_high_bits.
Qed.

Lemma Prune_clamps_witness :
  value (Prune (replicate 32 Byte.xff)) mod 8 = 0
  /\ 2 ^ 254 <= value (Prune (replicate 32 Byte.xff)) < 2 ^ 255.
Proof.
  destruct (Prune_clamps (replicate 32 Byte.xff) eq_refl) as (H8 & Hr & _).
  exact (conj H8 Hr).
Defined.

(** C8. [Prune] is idempotent: pruning a pruned byte string changes
    nothing, on 32-byte inputs as on any other length. *)
Theorem Prune_idempotent (z : Scalar) : Prune (Prune z) = Prune z.
Proof.
  apply list_eq. intros i. rewrite !Prune_lookup.
  destruct (z !! i) as [b |]; [| reflexivity]. cbn [fmap option_fmap option_map].
  repeat case_decide; f_equal;
    [apply clamp_low_idem | apply clamp_high_idem].
Qed.

(** C10. [Prune] touches byte 0 and byte 31 only: the bytes at positions
    1 to 30 are the ones it was given, and the length is kept. *)
Theorem Prune_frame (z : Scalar) (i : nat) :
  (1 <= i <= 30)%nat ->
  Prune z !! i = z !! i /\ length (Prune z) = length z.
Proof.
  intros Hi. split; [| apply Prune_length].
  rewrite Prune_lookup. rewrite !decide_False by lia.
  now destruct (z !! i).
Qed.

Lemma Prune_frame_witness :
  Prune (replicate 32 Byte.xff) !! 17%nat = Some Byte.xff.
Proof.
  destruct (Prune_frame (replicate 32 Byte.xff) 17) as [H _]; [lia |].
  rewrite H. reflexivity.
Defined.


(** * Further properties of [scalar.go] *)

(** ** More on the constructors *)

Lemma uint64_lt_order (n : Z) : u64.in_range n -> n < edwards25519.order.
Proof. unfold u64.in_range, edwards25519.order. lia. Qed.

Lemma abs_int64_is_uint64 (n : Z) : i64.in_range n -> u64.in_range (Z.abs n).
Proof. unfold i64.in_range, i64.min, i64.max, u64.in_range. lia. Qed.

Lemma SetInt64_encodes (s : Scalar) (n : Z) :
  i64.in_range n -> SetInt64 s n = Some (le_split 32 (Z.abs n)).
Proof.
  intros Hn. unfold SetInt64. destruct (Z.leb_spec 0 n) as [H0 | H0].
  - rewrite to_uint64_nonneg, <- (Z.abs_eq n) at 1 by assumption.
    apply SetUint64_encodes, abs_int64_is_uint64, Hn.
  - rewrite to_uint64_neg by assumption.
    apply SetUint64_encodes, abs_int64_is_uint64, Hn.
Qed.

Lemma value_split_uint64 (n : Z) :
  u64.in_range n -> value (le_split 32 n) = n.
Proof.
  intros Hn. apply value_split_32. unfold u64.in_range in Hn. lia.
Qed.

Lemma lookup_nth_error {A : Type} (l : list A) (i : nat) :
  l !! i = nth_error l i.
Proof.
  revert i. induction l as [| a l IH]; intros [| i]; try reflexivity.
  apply IH.
Qed.

(** X1. [SetUint64] never panics, whatever the receiver held, and on a
    [uint64] [n] it leaves a 32-byte scalar whose little-endian value is [n]
    itself; that value is below the one of the literal [L], so the scalar
    is canonical. *)
Theorem SetUint64_canonical (s : Scalar) (n : Z) :
  u64.in_range n ->
  exists r : Scalar,
    SetUint64 s n = Some r /\ is_scalar r /\ value r = n /\ value r < value L.
Proof.
  intros Hn. exists (le_split 32 n).
  split; [now apply SetUint64_encodes |]. split; [apply length_le_split |].
  rewrite value_split_uint64, value_L by exact Hn.
  split; [reflexivity | now apply uint64_lt_order].
Qed.

Lemma SetUint64_canonical_witness :
  exists r : Scalar,
    SetUint64 One (2 ^ 64 - 1) = Some r /\ is_scalar r
    /\ value r = 2 ^ 64 - 1 /\ value r < value L.
Proof.
  apply (SetUint64_canonical One (2 ^ 64 - 1)).
  unfold u64.in_range. lia.
Defined.

(** X2. The layout [SetUint64] leaves: byte [i] is the low byte of
    [n >> 8i] for the first eight positions, and every byte from position 8
    to position 31 is zero. *)
Theorem SetUint64_bytes (s : Scalar) (n : Z) (i : nat) :
  u64.in_range n -> (i < 32)%nat ->
  exists r : Scalar,
    SetUint64 s n = Some r
    /\ r !! i = Some (byte.of_Z (n ≫ (8 * Z.of_nat i)))
    /\ ((8 <= i)%nat -> r !! i = Some Byte.x00).
Proof.
  intros Hn Hi. exists (le_split 32 n).
  split; [now apply SetUint64_encodes |]. split.
  - rewrite lookup_nth_error. now apply nth_error_le_split.
  - intros H8. rewrite le_split_32_uint64 by exact Hn.
    rewrite lookup_app_r by (cbn [length]; lia).
    apply lookup_replicate_2. cbn [length]. lia.
Qed.

Lemma SetUint64_bytes_witness :
  exists r : Scalar,
    SetUint64 L 0x0102030405060708 = Some r
    /\ r !! 1%nat = Some (byte.of_Z (0x0102030405060708 ≫ 8)).
Proof.
  destruct (SetUint64_bytes L 0x0102030405060708 1) as (r & Hr & Hb & _).
  - unfold u64.in_range. lia.
  - lia.
  - exists r. exact (conj Hr Hb).
Defined.

(** X3. [SetUint64] is injective on [uint64]: two numbers that leave the
    same scalar are the same number. *)
Theorem SetUint64_injective (s s' : Scalar) (n m : Z) :
  u64.in_range n -> u64.in_range m ->
  SetUint64 s n = SetUint64 s' m -> n = m.
Proof.
  intros Hn Hm. rewrite !SetUint64_encodes by assumption.
  intros Heq. apply (inj Some) in Heq. apply (f_equal value) in Heq.
  now rewrite !value_split_uint64 in Heq by assumption.
Qed.

Lemma SetUint64_injective_witness : 0x0100 = 2 ^ 8.
Proof.
  apply (SetUint64_injective Zero One 0x0100 (2 ^ 8)).
  - unfold u64.in_range. lia.
  - unfold u64.in_range. lia.
  - vm_compute. reflexivity.
Defined.

(** X4. [SetInt64] never panics on an [int64]; it leaves a 32-byte scalar
    of value [|n|], never negative and below the value of [L], whatever the
    sign of [n]. *)
Theorem SetInt64_canonical (s : Scalar) (n : Z) :
  i64.in_range n ->
  exists r : Scalar,
    SetInt64 s n = Some r /\ is_scalar r
    /\ value r = Z.abs n /\ value r < value L.
Proof.
  intros Hn. pose proof (abs_int64_is_uint64 n Hn) as Habs.
  exists (le_split 32 (Z.abs n)).
  split; [now apply SetInt64_encodes |]. split; [apply length_le_split |].
  rewrite value_split_uint64, value_L by exact Habs.
  split; [reflexivity | now apply uint64_lt_order].
Qed.

Lemma SetInt64_canonical_witness :
  exists r : Scalar,
    SetInt64 L (-9) = Some r /\ is_scalar r
    /\ value r = 9 /\ value r < value L.
Proof.
  apply (SetInt64_canonical L (-9)).
  unfold i64.in_range, i64.min, i64.max. lia.
Defined.

(** X5. [SetInt64] forgets the sign and nothing else: two [int64] values
    leave the same scalar exactly when their magnitudes agree, so [n] and
    [-n] are never told apart. *)
Theorem SetInt64_same_iff_abs (s s' : Scalar) (n m : Z) :
  i64.in_range n -> i64.in_range m ->
  (SetInt64 s n = SetInt64 s' m <-> Z.abs n = Z.abs m).
Proof.
  intros Hn Hm. rewrite !SetInt64_encodes by assumption. split.
  - intros Heq. apply (inj Some) in Heq. apply (f_equal value) in Heq.
    now rewrite !value_split_uint64 in Heq by now apply abs_int64_is_uint64.
  - now intros ->.
Qed.

Lemma SetInt64_same_iff_abs_witness :
  SetInt64 Zero 12 = SetInt64 One (-12).
Proof.
  apply (SetInt64_same_iff_abs Zero One 12 (-12));
    unfold i64.in_range, i64.min, i64.max; lia.
Defined.

(** ** More on the comparison *)

Lemma value_inj (x y : Scalar) :
  is_scalar x -> is_scalar y -> value x = value y -> x = y.
Proof.
  unfold is_scalar, value. intros Hx Hy. apply le_combine_inj. congruence.
Qed.

(** X6. On two 32-byte scalars [Equal] decides equality of the integers
    they encode: no two distinct scalars share a value. *)
Theorem Equal_iff_value (x y : Scalar) :
  is_scalar x -> is_scalar y ->
  (Equal x y = true <-> value x = value y).
Proof.
  intros Hx Hy. rewrite Equal_true_iff. split.
  - now intros ->.
  - intros H. symmetry. now apply value_inj.
Qed.

Lemma Equal_iff_value_witness : value One <> value Cofactor.
Proof.
  intros Hv.
  apply (Equal_iff_value One Cofactor eq_refl eq_refl) in Hv.
  vm_compute in Hv. discriminate Hv.
Defined.

(** X7. [Equal] is symmetric in receiver and argument, and transitive. *)
Theorem Equal_sym_trans (x y w : Scalar) :
  Equal x y = Equal y x
  /\ (Equal x y = true -> Equal y w = true -> Equal x w = true).
Proof.
  split.
  - destruct (Equal y x) eqn:Hyx.
    + apply Equal_true_iff in Hyx. now apply Equal_true_iff.
    + apply Equal_false_iff in Hyx. apply Equal_false_iff. congruence.
  - rewrite !Equal_true_iff. congruence.
Qed.

Lemma Equal_sym_trans_witness :
  Equal One Cofactor = Equal Cofactor One
  /\ Equal (literal [1]) (literal [1; 0]) = true.
Proof.
  destruct (Equal_sym_trans One One (literal [1; 0])) as [_ Htrans].
  destruct (Equal_sym_trans One Cofactor Zero) as [Hsym _].
  split; [exact Hsym |].
  apply Htrans; reflexivity.
Defined.

(** ** More on clamping *)

Lemma clamp_low_value b :
  byte.unsigned (clamp_low b) = byte.unsigned b - byte.unsigned b mod 8.
Proof. destruct b; vm_compute; reflexivity. Qed.

Lemma clamp_high_value b :
  byte.unsigned (clamp_high b) = byte.unsigned b mod 64 + 64.
Proof. destruct b; vm_compute; reflexivity. Qed.

(** The arithmetic behind clamping, on the three parts of a scalar. *)
Lemma clamp_parts (a m c : Z) :
  0 <= a < 256 -> 0 <= m < 2 ^ 240 -> 0 <= c < 256 ->
  (a - a mod 8) + 256 * m + 2 ^ 248 * (c mod 64 + 64)
  = 2 ^ 254 + 8 * (((a + 256 * m + 2 ^ 248 * c) / 8) mod 2 ^ 251).
Proof.
  intros Ha Hm Hc.
  pose proof (Z.div_mod a 8 ltac:(lia)) as Ea.
  pose proof (Z.mod_pos_bound a 8 ltac:(lia)) as Ba.
  pose proof (Z.div_mod c 64 ltac:(lia)) as Ec.
  pose proof (Z.mod_pos_bound c 64 ltac:(lia)) as Bc.
  set (qa := a / 8) in *. set (ra := a mod 8) in *.
  set (qc := c / 64) in *. set (rc := c mod 64) in *.
  assert (Hdiv : (a + 256 * m + 2 ^ 248 * c) / 8
                 = qa + 32 * m + 2 ^ 245 * rc + qc * 2 ^ 251).
  { symmetry. apply (Z.div_unique _ 8 _ ra); [lia |].
    change (2 ^ 248) with (8 * 2 ^ 245).
    change (2 ^ 251) with (64 * 2 ^ 245). rewrite Ea, Ec at 1. ring. }
  rewrite Hdiv, Z.mod_add by lia.
  rewrite Z.mod_small.
  - change (2 ^ 254) with (64 * 2 ^ 248). change (2 ^ 245) with (2 ^ 248 / 8).
    assert (H248 : 2 ^ 248 = 8 * (2 ^ 248 / 8)) by reflexivity. lia.
  - change (2 ^ 251) with (64 * 2 ^ 245). change (2 ^ 240) with (2 ^ 245 / 32) in Hm.
    assert (H245 : 2 ^ 245 = 32 * (2 ^ 245 / 32)) by reflexivity. lia.
Qed.

Lemma Prune_value (z : Scalar) :
  is_scalar z -> value (Prune z) = 2 ^ 254 + 8 * ((value z / 8) mod 2 ^ 251).
Proof.
  intros Hz. destruct (scalar_ends z Hz) as (b0 & mid & b31 & -> & Hmid).
  rewrite Prune_ends, !value_ends by exact Hmid.
  rewrite clamp_low_value, clamp_high_value.
  pose proof (le_combine_bound mid) as Hm. rewrite Hmid in Hm.
  change (2 ^ (8 * Z.of_nat 30)) with (2 ^ 240) in Hm.
  apply clamp_parts; [apply unsigned_bound | exact Hm | apply unsigned_bound].
Qed.

Lemma value_nonneg (z : Scalar) : 0 <= value z.
Proof. apply le_combine_bound. Qed.

(** Facts of arithmetic on the clamped value [2^254 + 8 * ((v / 8) mod 2^251)]. *)
Lemma clamped_range (v : Z) :
  2 ^ 254 <= 2 ^ 254 + 8 * ((v / 8) mod 2 ^ 251) < 2 ^ 255.
Proof.
  pose proof (Z.mod_pos_bound (v / 8) (2 ^ 251) ltac:(lia)) as H.
  change (2 ^ 255) with (2 ^ 254 + 8 * 2 ^ 251). lia.
Qed.

Lemma clamped_fixed (v : Z) :
  v mod 8 = 0 -> 2 ^ 254 <= v < 2 ^ 255 ->
  2 ^ 254 + 8 * ((v / 8) mod 2 ^ 251) = v.
Proof.
  intros H8 Hv. pose proof (Z.div_mod v 8 ltac:(lia)) as Ev.
  rewrite H8, Z.add_0_r in Ev.
  assert (Hq : (v / 8) mod 2 ^ 251 = v / 8 - 2 ^ 251).
  { symmetry. apply (Z.mod_unique _ _ 1).
    - left. change (2 ^ 254) with (8 * 2 ^ 251) in Hv.
      change (2 ^ 255) with (8 * (2 * 2 ^ 251)) in Hv. lia.
    - ring. }
  rewrite Hq. change (2 ^ 254) with (8 * 2 ^ 251). lia.
Qed.

(** X8. The integer [Prune] leaves is a closed form of the integer it was
    given: bit 254 set over eight times the 251 bits that sit above the low
    three, i.e. [v mod 2^254 - v mod 8 + 2^254]; the bits 3 to 253 of the
    value are kept. *)
Theorem Prune_value_formula (z : Scalar) :
  is_scalar z ->
  value (Prune z) = 2 ^ 254 + 8 * ((value z / 8) mod 2 ^ 251)
  /\ value (Prune z) = value z mod 2 ^ 254 - value z mod 8 + 2 ^ 254
  /\ (value (Prune z) / 8) mod 2 ^ 251 = (value z / 8) mod 2 ^ 251.
Proof.
  intros Hz. rewrite (Prune_value z Hz). set (v := value z).
  pose proof (Z.mod_pos_bound (v / 8) (2 ^ 251) ltac:(lia)) as Hq.
  split; [reflexivity |]. split.
  - pose proof (Z.div_mod v 8 ltac:(lia)) as Ev.
    pose proof (Z.div_mod (v / 8) (2 ^ 251) ltac:(lia)) as Eq.
    pose proof (Z.mod_pos_bound v 8 ltac:(lia)) as Hr.
    assert (Hmod : v mod 2 ^ 254 = 8 * ((v / 8) mod 2 ^ 251) + v mod 8).
    { symmetry. apply (Z.mod_unique _ _ (v / 8 / 2 ^ 251)).
      - left. change (2 ^ 254) with (8 * 2 ^ 251). lia.
      - change (2 ^ 254) with (8 * 2 ^ 251). lia. }
    lia.
  - replace (2 ^ 254 + 8 * ((v / 8) mod 2 ^ 251))
      with (((v / 8) mod 2 ^ 251 + 2 ^ 251) * 8)
      by (change (2 ^ 254) with (8 * 2 ^ 251); ring).
    rewrite Z.div_mul by lia.
    rewrite <- (Z.mul_1_l (2 ^ 251)) at 2.
    rewrite Z.mod_add by lia. apply Z.mod_mod. lia.
Qed.

Lemma Prune_value_formula_witness :
  value (Prune (replicate 32 Byte.xff))
  = 2 ^ 254 + 8 * ((value (replicate 32 Byte.xff) / 8) mod 2 ^ 251).
Proof.
  destruct (Prune_value_formula (replicate 32 Byte.xff) eq_refl) as [H _].
  exact H.
Defined.

(** X9. The scalars [Prune] leaves alone are exactly the clamped ones: a
    32-byte scalar is a fixed point of [Prune] if and only if its value is a
    multiple of 8 in the range from 2^254 up to, not including, 2^255. *)
Theorem Prune_fixed_iff (z : Scalar) :
  is_scalar z ->
  (Prune z = z <-> value z mod 8 = 0 /\ 2 ^ 254 <= value z < 2 ^ 255).
Proof.
  intros Hz. split.
  - intros Hfix. rewrite <- Hfix, (Prune_value z Hz). split.
    + rewrite Z.add_comm, Z.mul_comm.
      change (2 ^ 254) with (2 ^ 251 * 8).
      rewrite <- Z.mul_add_distr_r. apply Z.mod_mul. lia.
    + apply clamped_range.
  - intros [H8 Hv]. apply value_inj.
    + unfold is_scalar. now rewrite Prune_length.
    + exact Hz.
    + rewrite (Prune_value z Hz). now apply clamped_fixed.
Qed.

Lemma Prune_fixed_iff_witness :
  Prune (<[31%nat := Byte.x40]> Cofactor) = <[31%nat := Byte.x40]> Cofactor.
Proof.
  assert (Hs : is_scalar (<[31%nat := Byte.x40]> Cofactor))
    by (vm_compute; reflexivity).
  apply (Prune_fixed_iff (<[31%nat := Byte.x40]> Cofactor) Hs).
  vm_compute. split; [reflexivity |]. split; [discriminate | reflexivity].
Defined.

(** X10. A pruned scalar is never a canonical one: its value exceeds the
    value of [L], so [Equal] tells it apart from every scalar below [L];
    and that value is a multiple of the value of [Cofactor]. *)
Theorem Prune_not_canonical (z r : Scalar) :
  is_scalar z ->
  value L < value (Prune z)
  /\ value (Prune z) mod value Cofactor = 0
  /\ (value r < value L -> Equal (Prune z) r = false).
Proof.
  intros Hz. rewrite (Prune_value z Hz), value_L.
  pose proof (clamped_range (value z)) as Hrange.
  assert (Hlt : edwards25519.order < 2 ^ 254) by reflexivity.
  split; [lia |]. split.
  - change (value Cofactor) with 8.
    rewrite Z.add_comm, Z.mul_comm. change (2 ^ 254) with (2 ^ 251 * 8).
    rewrite <- Z.mul_add_distr_r. apply Z.mod_mul. lia.
  - intros Hr. apply Equal_false_iff. intros ->.
    rewrite (Prune_value z Hz) in Hr. lia.
Qed.

Lemma Prune_not_canonical_witness :
  value L < value (Prune Zero) /\ Equal (Prune Zero) NegOne = false.
Proof.
  destruct (Prune_not_canonical Zero NegOne eq_refl) as (H1 & _ & H3).
  split; [exact H1 |]. apply H3.
  rewrite value_NegOne, value_L. lia.
Defined.

(** X11. What [Prune] forgets: two 32-byte scalars are pruned to the same
    scalar exactly when their values agree on the bits 3 to 253. *)
Theorem Prune_same_iff (x y : Scalar) :
  is_scalar x -> is_scalar y ->
  (Prune x = Prune y
   <-> (value x / 8) mod 2 ^ 251 = (value y / 8) mod 2 ^ 251).
Proof.
  intros Hx Hy. split.
  - intros Heq. apply (f_equal value) in Heq.
    rewrite (Prune_value x Hx), (Prune_value y Hy) in Heq. lia.
  - intros Heq. apply value_inj.
    + unfold is_scalar. now rewrite Prune_length.
    + unfold is_scalar. now rewrite Prune_length.
    + now rewrite (Prune_value x Hx), (Prune_value y Hy), Heq.
Qed.

Lemma Prune_same_iff_witness : Prune Zero = Prune (literal [7]).
Proof.
  apply (Prune_same_iff Zero (literal [7]) eq_refl eq_refl).
  reflexivity.
Defined.

(** ** The hexadecimal text *)

Section HexFacts.
Import hex.

(** Both indices [Encode] forms fall inside the table. *)
Lemma index_in_table (v : byte) :
  hextable !! Z.to_nat (byte.unsigned v ≫ 4) = Some (index (byte.unsigned v ≫ 4))
  /\ hextable !! Z.to_nat (Z.land (byte.unsigned v) 0x0f)
     = Some (index (Z.land (byte.unsigned v) 0x0f)).
Proof. destruct v; vm_compute; split; reflexivity. Qed.

(** The two characters written for a byte spell that byte. *)
Lemma hex_pair_index (v : byte) :
  hex_pair (index (byte.unsigned v ≫ 4)) (index (Z.land (byte.unsigned v) 0x0f))
  = v.
Proof. destruct v; vm_compute; reflexivity. Qed.

Lemma Encode_length (src : list byte) :
  length (Encode src) = (2 * length src)%nat.
Proof.
  induction src as [| v src IH]; [reflexivity |].
  cbn [Encode length]. rewrite IH. lia.
Qed.

Lemma Encode_alphabet (src : list byte) :
  Forall (fun c => c ∈ hextable) (Encode src).
Proof.
  induction src as [| v src IH]; [constructor |].
  destruct (index_in_table v) as [Hhi Hlo]. cbn [Encode].
  constructor; [| constructor; [| exact IH]];
    eapply list_elem_of_lookup_2; eassumption.
Qed.

Lemma Encode_inj (x y : list byte) : Encode x = Encode y -> x = y.
Proof.
  revert y. induction x as [| v x IH]; intros [| w y] Heq;
    try discriminate Heq; [reflexivity |].
  cbn [Encode] in Heq. injection Heq as Hhi Hlo Hrest.
  f_equal; [| now apply IH].
  rewrite <- (hex_pair_index v), <- (hex_pair_index w). now rewrite Hhi, Hlo.
Qed.

Lemma string_of_list_byte_length (l : list byte) :
  String.length (String.string_of_list_byte l) = length l.
Proof.
  induction l as [| c l IH]; [reflexivity |].
  cbn [String.string_of_list_byte map String.string_of_list_ascii String.length length].
  f_equal. exact IH.
Qed.

Lemma string_of_list_byte_inj (l1 l2 : list byte) :
  String.string_of_list_byte l1 = String.string_of_list_byte l2 -> l1 = l2.
Proof.
  intros H. apply (f_equal String.list_byte_of_string) in H.
  now rewrite !String.list_byte_of_string_of_list_byte in H.
Qed.
End HexFacts.

(** X12. The text of a 32-byte scalar has exactly 64 characters, two per
    byte, and every one of them is a digit or a lowercase letter from [a]
    to [f]. *)
Theorem Scalar_String_shape (s : Scalar) :
  is_scalar s ->
  String.length (Scalar_String s) = 64%nat
  /\ Forall (fun c => (48 <= byte.unsigned c <= 57)
                      \/ (97 <= byte.unsigned c <= 102))
       (String.list_byte_of_string (Scalar_String s)).
Proof.
  unfold is_scalar, Scalar_String, hex.EncodeToString. intros Hs.
  rewrite string_of_list_byte_length, Encode_length, Hs.
  split; [reflexivity |].
  rewrite String.list_byte_of_string_of_list_byte.
  eapply Forall_impl; [apply Encode_alphabet |].
  intros c Hc. cbv beta in Hc.
  repeat (apply elem_of_cons in Hc as [-> | Hc]; [vm_compute; intuition discriminate |]).
  now apply elem_of_nil in Hc.
Qed.

Lemma Scalar_String_shape_witness :
  String.length (Scalar_String NegOne) = 64%nat.
Proof.
  destruct (Scalar_String_shape NegOne eq_refl) as [H _]. exact H.
Defined.

(** X13. The text determines the scalar: two byte strings with the same
    text are the same, so [Equal] holds exactly when the texts coincide. *)
Theorem Scalar_String_injective (x y : Scalar) :
  (Scalar_String x = Scalar_String y <-> x = y)
  /\ (Equal x y = true <-> Scalar_String x = Scalar_String y).
Proof.
  assert (Hinj : Scalar_String x = Scalar_String y <-> x = y).
  { split; [| now intros ->]. unfold Scalar_String, hex.EncodeToString.
    intros H. now apply Encode_inj, string_of_list_byte_inj. }
  split; [exact Hinj |].
  rewrite Equal_true_iff, Hinj. split; congruence.
Qed.

(** ** The derived arithmetic, over [ScMulAdd] as modelled from the spec *)

Section DerivedArithmetic.
Import edwards25519.
Implicit Types z a b c x y w : Scalar.

Lemma order_neq_0 : order <> 0.
Proof. discriminate. Qed.

Lemma opp_mod_idemp (v : Z) : (- (v mod order)) mod order = (- v) mod order.
Proof.
  replace (- (v mod order)) with (-1 * (v mod order)) by ring.
  replace (- v) with (-1 * v) by ring.
  apply Z.mul_mod_idemp_r, order_neq_0.
Qed.

Lemma value_MulAdd_lt z a b c : 0 <= value (MulAdd z a b c) < value L.
Proof.
  rewrite value_MulAdd, value_L. apply Z.mod_pos_bound, order_pos.
Qed.

Lemma mul_add_NegOne_mod (u v : Z) :
  (u * (order - 1) + v) mod order = (v - u) mod order.
Proof.
  replace (u * (order - 1) + v) with (v - u + u * order) by ring.
  apply Z.mod_add, order_neq_0.
Qed.

Lemma mul_NegOne_mod (u : Z) : (u * (order - 1)) mod order = (- u) mod order.
Proof.
  replace (u * (order - 1)) with (- u + u * order) by ring.
  apply Z.mod_add, order_neq_0.
Qed.

Lemma canonical_mod x : 0 <= value x < order -> value x mod order = value x.
Proof. apply Z.mod_small. Qed.
End DerivedArithmetic.

(** Pushes every inner reduction of a goal [_ mod order = _ mod order]
    outwards and compares what is reduced as polynomials. *)
Ltac mod_order :=
  rewrite ?value_Add, ?value_Mul, ?value_Neg, ?value_Sub, ?value_MulAdd,
    ?value_One, ?value_Zero, ?value_NegOne;
  rewrite ?Z.mul_1_r, ?Z.mul_1_l, ?Z.add_0_r, ?Z.add_0_l;
  repeat first
    [ rewrite Z.add_mod_idemp_l by exact order_neq_0
    | rewrite Z.add_mod_idemp_r by exact order_neq_0
    | rewrite Z.mul_mod_idemp_l by exact order_neq_0
    | rewrite Z.mul_mod_idemp_r by exact order_neq_0
    | rewrite opp_mod_idemp ];
  rewrite ?mul_add_NegOne_mod, ?mul_NegOne_mod;
  try (f_equal; ring).

(** X14. What the wrappers compute, as their comments say: [Add] leaves
    [x + y] modulo L, [Mul] leaves [x * y] modulo L and [Neg] leaves [-x]
    modulo L, L being the value of the literal [L]; each result is a 32-byte
    scalar of value below L. *)
Theorem Add_Mul_Neg_values (z x y : Scalar) :
  value (Add z x y) = (value x + value y) mod value L
  /\ value (Mul z x y) = (value x * value y) mod value L
  /\ value (Neg z x) = (- value x) mod value L
  /\ (is_scalar (Add z x y) /\ value (Add z x y) < value L)
  /\ (is_scalar (Mul z x y) /\ value (Mul z x y) < value L)
  /\ (is_scalar (Neg z x) /\ value (Neg z x) < value L).
Proof.
  split; [rewrite value_L; apply value_Add |].
  split; [rewrite value_L; apply value_Mul |].
  split; [rewrite value_L; apply value_Neg |].
  split; [| split]; (split; [apply MulAdd_is_scalar | apply value_MulAdd_lt]).
Qed.

(** X15. [Neg] gives the additive inverse: [Add] of [x] and [Neg x] is
    [Zero], [Sub] of [x] and [x] is [Zero], and [Neg] is [Sub] from
    [Zero]. *)
Theorem Neg_additive_inverse (z z1 z2 x : Scalar) :
  Add z x (Neg z1 x) = Zero
  /\ Add z (Neg z1 x) x = Zero
  /\ Sub z x x = Zero
  /\ Neg z x = Sub z2 Zero x.
Proof.
  assert (H0 : forall v, v mod edwards25519.order = 0 ->
                le_split 32 (v mod edwards25519.order) = Zero).
  { intros v ->. reflexivity. }
  repeat split.
  - unfold Add at 1, MulAdd, edwards25519.ScMulAdd, edwards25519.reduce.
    fold (value x) (value One) (value (Neg z1 x)). apply H0.
    change 0 with (0 mod edwards25519.order). mod_order.
  - unfold Add at 1, MulAdd, edwards25519.ScMulAdd, edwards25519.reduce.
    fold (value x) (value One) (value (Neg z1 x)). apply H0.
    change 0 with (0 mod edwards25519.order). mod_order.
  - unfold Sub, MulAdd, edwards25519.ScMulAdd, edwards25519.reduce.
    fold (value x) (value NegOne). apply H0. rewrite value_NegOne.
    replace (value x * (edwards25519.order - 1) + value x)
      with (value x * edwards25519.order) by ring.
    apply Z.mod_mul, order_neq_0.
Qed.

(** Two results of [MulAdd] are the same scalar when their values are
    congruent. *)
Lemma MulAdd_eq_scalar (z a b c x : Scalar) :
  is_scalar x -> 0 <= value x < edwards25519.order ->
  (value a * value b + value c) mod edwards25519.order
  = value x mod edwards25519.order ->
  MulAdd z a b c = x.
Proof.
  intros Hx Hc Heq. apply value_inj; [apply MulAdd_is_scalar | exact Hx |].
  rewrite value_MulAdd, Heq. now apply Z.mod_small.
Qed.

(** X16. On a canonical scalar [Neg] is an involution, and subtraction
    undoes addition: [Neg (Neg x)], [Add (Sub x y) y] and [Sub (Add x y) y]
    are [x] again. *)
Theorem Neg_involutive_Sub_Add (z z1 x y : Scalar) :
  is_scalar x -> 0 <= value x < value L ->
  Neg z (Neg z1 x) = x
  /\ Add z (Sub z1 x y) y = x
  /\ Sub z (Add z1 x y) y = x.
Proof.
  rewrite value_L. intros Hx Hc.
  split; [| split]; apply MulAdd_eq_scalar; try assumption.
  - mod_order.
  - mod_order.
  - mod_order.
Qed.

Lemma Neg_involutive_Sub_Add_witness :
  Neg Zero (Neg Zero Cofactor) = Cofactor
  /\ Add Zero (Sub Zero Cofactor NegOne) NegOne = Cofactor
  /\ Sub Zero (Add Zero Cofactor NegOne) NegOne = Cofactor.
Proof.
  apply (Neg_involutive_Sub_Add Zero Zero Cofactor NegOne eq_refl).
  rewrite value_L. change (value Cofactor) with 8.
  unfold edwards25519.order. lia.
Defined.

(** X17. [Add] and [Mul] are commutative and associative and [Mul]
    distributes over [Add], as equalities of the scalars left in the
    receivers. *)
Theorem Add_Mul_ring_laws (z z' z1 z2 z3 x y w : Scalar) :
  Add z x y = Add z' y x
  /\ Mul z x y = Mul z' y x
  /\ Add z (Add z1 x y) w = Add z' x (Add z2 y w)
  /\ Mul z (Mul z1 x y) w = Mul z' x (Mul z2 y w)
  /\ Mul z x (Add z1 y w) = Add z' (Mul z2 x y) (Mul z3 x w).
Proof.
  unfold Add, Mul.
  split; [| split; [| split; [| split]]];
    apply MulAdd_value_ext; mod_order.
Qed.

(** X18. Arithmetic on scalars made from [uint64] numbers is exact: the
    sum and the product of two such numbers stay below L, so [Add] and [Mul]
    leave scalars whose values are [a + b] and [a * b], and when these fit
    in a [uint64] the scalars are the ones [SetUint64] makes from them. *)
Theorem Add_Mul_SetUint64 (s z : Scalar) (a b : Z) :
  u64.in_range a -> u64.in_range b ->
  exists ra rb : Scalar,
    SetUint64 s a = Some ra /\ SetUint64 s b = Some rb
    /\ value (Add z ra rb) = a + b
    /\ value (Mul z ra rb) = a * b
    /\ (u64.in_range (a + b) -> SetUint64 s (a + b) = Some (Add z ra rb))
    /\ (u64.in_range (a * b) -> SetUint64 s (a * b) = Some (Mul z ra rb)).
Proof.
  intros Ha Hb. exists (le_split 32 a), (le_split 32 b).
  rewrite !SetUint64_encodes by assumption.
  assert (Hadd : value (Add z (le_split 32 a) (le_split 32 b)) = a + b).
  { rewrite value_Add, !value_split_uint64 by assumption.
    apply Z.mod_small. unfold u64.in_range, edwards25519.order in *. lia. }
  assert (Hmul : value (Mul z (le_split 32 a) (le_split 32 b)) = a * b).
  { rewrite value_Mul, !value_split_uint64 by assumption.
    apply Z.mod_small. unfold u64.in_range, edwards25519.order in *.
    change (2 ^ 252) with (2 ^ 64 * 2 ^ 64 * 2 ^ 124). nia. }
  split; [reflexivity |]. split; [reflexivity |].
  split; [exact Hadd |]. split; [exact Hmul |].
  split; intros Hfit; rewrite SetUint64_encodes by exact Hfit; f_equal;
    symmetry; (apply value_inj;
      [apply MulAdd_is_scalar | apply length_le_split |]);
    rewrite ?Hadd, ?Hmul; symmetry; now apply value_split_uint64.
Qed.

Lemma Add_Mul_SetUint64_witness :
  exists ra rb : Scalar,
    SetUint64 Zero 5 = Some ra /\ SetUint64 Zero 7 = Some rb
    /\ SetUint64 Zero 12 = Some (Add Zero ra rb)
    /\ SetUint64 Zero 35 = Some (Mul Zero ra rb).
Proof.
  assert (H5 : u64.in_range 5) by (unfold u64.in_range; lia).
  assert (H7 : u64.in_range 7) by (unfold u64.in_range; lia).
  destruct (Add_Mul_SetUint64 Zero Zero 5 7 H5 H7)
    as (ra & rb & Ha & Hb & _ & _ & Hadd & Hmul).
  exists ra, rb. split; [exact Ha |]. split; [exact Hb |]. split.
  - apply Hadd. unfold u64.in_range. lia.
  - apply Hmul. unfold u64.in_range. lia.
Defined.

(** X19. [Reduce] on a 32-byte scalar extended by 32 zero bytes to the 64
    bytes it takes gives the canonical form of the scalar, the one [Mul] by
    [One] gives; a canonical scalar comes back unchanged. *)
Theorem Reduce_zero_extended (z z' x : Scalar) :
  is_scalar x ->
  length (x ++ replicate 32 Byte.x00) = 64%nat
  /\ Reduce z (x ++ replicate 32 Byte.x00) = Mul z' x One
  /\ (value x < value L -> Reduce z (x ++ replicate 32 Byte.x00) = x).
Proof.
  intros Hx.
  assert (Hval : le_combine (x ++ replicate 32 Byte.x00) = value x).
  { rewrite value_app.
    change (le_combine (replicate 32 Byte.x00)) with 0. unfold value. lia. }
  split; [rewrite length_app, length_replicate; unfold is_scalar in Hx; lia |].
  unfold Reduce, edwards25519.ScReduce, edwards25519.reduce. rewrite Hval.
  split.
  - unfold Mul, MulAdd, edwards25519.ScMulAdd, edwards25519.reduce.
    fold (value x) (value One) (value Zero).
    now rewrite value_One, value_Zero, Z.mul_1_r, Z.add_0_r.
  - rewrite value_L. intros Hlt. now apply MulAdd_canonical_value.
Qed.

Lemma Reduce_zero_extended_witness :
  Reduce Zero (L ++ replicate 32 Byte.x00) = Mul Zero L One.
Proof.
  destruct (Reduce_zero_extended Zero Zero L eq_refl) as (_ & H & _).
  exact H.
Defined.

(** X20. The residue of a negative [int64] is reached through [Neg]:
    after [SetInt64] on [n < 0], [Neg] leaves the scalar of value [L + n]. *)
Theorem Neg_SetInt64 (s z : Scalar) (n : Z) :
  i64.in_range n -> n < 0 ->
  exists r : Scalar,
    SetInt64 s n = Some r /\ value (Neg z r) = value L + n.
Proof.
  intros Hn H0. exists (le_split 32 (Z.abs n)).
  split; [now apply SetInt64_encodes |].
  rewrite value_Neg, value_split_uint64 by now apply abs_int64_is_uint64.
  rewrite value_L, Z.abs_neq, Z.opp_involutive by lia.
  rewrite <- (Z.mod_add n 1) by exact order_neq_0.
  rewrite Z.mod_small; [lia |].
  unfold i64.in_range, i64.min, i64.max, edwards25519.order in *. lia.
Qed.

Lemma Neg_SetInt64_witness :
  exists r : Scalar,
    SetInt64 Zero (-1) = Some r /\ value (Neg Zero r) = value L + -1.
Proof.
  apply (Neg_SetInt64 Zero Zero (-1)).
  - unfold i64.in_range, i64.min, i64.max. lia.
  - lia.
Defined.

(** X21. [Equal] compares encodings, not residues: a scalar and the scalar
    whose value is larger by L are different for [Equal], while [Add],
    [Mul] and [Neg] give the same results on both. *)
Theorem Equal_unreduced (z z' x y w : Scalar) :
  value y = value x + value L ->
  Equal x y = false
  /\ Add z x w = Add z' y w
  /\ Mul z x w = Mul z' y w
  /\ Neg z x = Neg z' y.
Proof.
  rewrite value_L. intros Hy. split.
  - apply Equal_false_iff. intros ->. pose proof order_pos. lia.
  - unfold Add, Mul, Neg.
    split; [| split]; apply MulAdd_value_ext; rewrite Hy;
      rewrite ?value_One, ?value_Zero, ?value_NegOne, ?Z.add_0_r, ?Z.mul_1_r.
    + rewrite <- (Z.mod_add (value x + value w) 1) by exact order_neq_0.
      f_equal. ring.
    + rewrite <- (Z.mod_add (value x * value w) (value w)) by exact order_neq_0.
      f_equal. ring.
    + rewrite <- (Z.mod_add (value x * (edwards25519.order - 1))
                    (edwards25519.order - 1)) by exact order_neq_0.
      f_equal. ring.
Qed.

Lemma Equal_unreduced_witness :
  Equal Zero L = false /\ Add Zero Zero One = Add Zero L One.
Proof.
  destruct (Equal_unreduced Zero Zero Zero L One) as (H1 & H2 & _).
  - rewrite value_L. reflexivity.
  - exact (conj H1 H2).
Defined.
